(** * Boarding-pass seat decoder and gap finder (src/main.rs)

    A shallow embedding of [to_id], [Seat::new_for_code], [read_seats] and
    the analysis performed in [main].

    Arithmetic follows Rust with overflow checks enabled (the default
    profile of [cargo build], [cargo run] and [cargo test]): the [usize]
    subtraction [9 - i] panics when [i > 9].  Panics are modelled as a
    separate outcome [Panics], distinct from the [Err] values of the
    program's own [Result] type.

    Characters are modelled as [ascii]; every non-ASCII Rust [char] takes
    the same [_] arm of the [match] in [to_id] as an ASCII character other
    than F, B, L, R. *)

From Stdlib Require Import ZArith List String Ascii Lia Sorting.Permutation Sorting.Sorted.
Import ListNotations.
Open Scope Z_scope.

(** ** Outcomes: a Rust computation either returns or panics. *)

Inductive outcome (A : Type) : Type :=
| Returns (a : A)
| Panics (msg : string).
Arguments Returns {A} a.
Arguments Panics {A} msg.

(** [struct Error { message: String }] *)
Record Error := Error_new { message : string }.

(** [type Result<T> = result::Result<T, Error>] *)
Inductive result (T : Type) : Type :=
| Ok (v : T)
| Err (e : Error).
Arguments Ok {T} v.
Arguments Err {T} e.

(** [struct Seat { id: u32, code: String }] *)
Record Seat := mkSeat { id : Z; code : string }.

(** Decimal rendering of a non-negative integer, as [format!("{}", n)]. *)
Fixpoint digits_aux (fuel : nat) (n : Z) (acc : string) : string :=
  match fuel with
  | O => acc
  | S fuel' =>
      let d := String (ascii_of_nat (48 + Z.to_nat (n mod 10))) EmptyString in
      if n <? 10 then (d ++ acc)%string
      else digits_aux fuel' (n / 10) (d ++ acc)%string
  end.

Definition z_to_string (n : Z) : string := digits_aux 20 n EmptyString.

(** ** [to_id] *)

Definition illegal_char_msg (c : ascii) : string :=
  (String c EmptyString ++ " is an illegal character")%string.

Definition sub_overflow_msg : string := "attempt to subtract with overflow".

(** One step of the [fold]: [acc.and_then(|id| { let mask = 1u32 << (9 - i); match c ... })].
    When [acc] is already an [Err], the closure is not run, so [9 - i] is not
    evaluated.  Otherwise [9 - i] is evaluated before the [match] on [c]. *)
Definition to_id_step (acc : result Z) (i : nat) (c : ascii) : outcome (result Z) :=
  match acc with
  | Err e => Returns (Err e)
  | Ok id =>
      if (9 <? i)%nat then Panics sub_overflow_msg
      else
        let mask := Z.shiftl 1 (Z.of_nat (9 - i)) in
        match c with
        | "F"%char | "L"%char => Returns (Ok id)
        | "B"%char | "R"%char => Returns (Ok (Z.lor id mask))
        | _ => Returns (Err (Error_new (illegal_char_msg c)))
        end
  end.

(** [code.chars().enumerate().fold(Ok(0u32), ...)], with [i] the index of
    the current character. *)
Fixpoint to_id_go (i : nat) (cs : list ascii) (acc : result Z) : outcome (result Z) :=
  match cs with
  | [] => Returns acc
  | c :: cs' =>
      match to_id_step acc i c with
      | Panics m => Panics m
      | Returns acc' => to_id_go (S i) cs' acc'
      end
  end.

Definition to_id (code : string) : outcome (result Z) :=
  to_id_go 0 (list_ascii_of_string code) (Ok 0).

(** ** [Seat::new_for_code] *)

Definition too_high_msg (n : Z) : string :=
  ("id " ++ z_to_string n ++ " is too high")%string.

Definition new_for_code (code : string) : outcome (result Seat) :=
  match to_id code with
  | Panics m => Panics m
  | Returns (Err e) => Returns (Err e)
  | Returns (Ok i) =>
      if i <=? 1023 then Returns (Ok (mkSeat i code))
      else Returns (Err (Error_new (too_high_msg i)))
  end.

(** ** [read_seats] (after the lines have been read)

    [lines.map(|res| ... Seat::new_for_code(code)).fold(Ok(Vec::new()), ...)].
    The [map] is lazy but [fold] pulls every element, so [new_for_code] runs
    on every line, also after an earlier line failed; the first [Err] is kept. *)
Definition push_step (acc : result (list Seat)) (res : result Seat) : result (list Seat) :=
  match acc with
  | Err e => Err e
  | Ok v =>
      match res with
      | Ok seat => Ok (v ++ [seat])
      | Err e => Err e
      end
  end.

Fixpoint read_seats_go (lines : list string) (acc : result (list Seat))
  : outcome (result (list Seat)) :=
  match lines with
  | [] => Returns acc
  | l :: ls =>
      match new_for_code l with
      | Panics m => Panics m
      | Returns r => read_seats_go ls (push_step acc r)
      end
  end.

Definition read_seats (lines : list string) : outcome (result (list Seat)) :=
  read_seats_go lines (Ok []).

(** ** [seats.sort()]

    [Ord for Seat] compares ids only; [slice::sort] is stable.  Insertion
    sort that puts a new element before every element with an id at least
    as large is stable, so it yields the same sequence as [slice::sort]. *)
Fixpoint insert (x : Seat) (l : list Seat) : list Seat :=
  match l with
  | [] => [x]
  | y :: l' => if id x <=? id y then x :: y :: l' else y :: insert x l'
  end.

Fixpoint sort (l : list Seat) : list Seat :=
  match l with
  | [] => []
  | x :: l' => insert x (sort l')
  end.

(** ** The analysis in [main] *)

Definition unwrap_none_msg : string :=
  "called `Option::unwrap()` on a `None` value".

Definition index_oob_msg : string := "index out of bounds".

(** [(lo..=hi).find(pred)]: [n] is the number of ids left in the range. *)
Fixpoint find_range (p : Z -> outcome bool) (cur : Z) (n : nat) : outcome (option Z) :=
  match n with
  | O => Returns None
  | S n' =>
      match p cur with
      | Panics m => Panics m
      | Returns true => Returns (Some cur)
      | Returns false => find_range p (cur + 1) n'
      end
  end.

(** [|id| seats[(id - lowest) as usize].id != *id] *)
Definition mismatch (seats : list Seat) (lowest : Z) (i : Z) : outcome bool :=
  match nth_error seats (Z.to_nat (i - lowest)) with
  | None => Panics index_oob_msg
  | Some s => Returns (negb (id s =? i))
  end.

(** Lines 103-107 of [main], on the already sorted vector. *)
Definition analyze_sorted (seats : list Seat) : outcome (Z * Z * Z) :=
  match seats with
  | [] => Panics unwrap_none_msg
  | first :: _ =>
      let lowest := id first in
      let highest := id (last seats first) in
      match find_range (mismatch seats lowest) lowest (Z.to_nat (highest - lowest + 1)) with
      | Panics m => Panics m
      | Returns None => Panics unwrap_none_msg
      | Returns (Some mine) => Returns (lowest, highest, mine)
      end
  end.

(** Lines 102-107 of [main]: sort, then analyse. *)
Definition analyze (seats : list Seat) : outcome (Z * Z * Z) :=
  analyze_sorted (sort seats).

(** [main] from [read_seats] to the three printed values: an [Err] of
    [read_seats] is returned by [?]; panics propagate. *)
Definition run (lines : list string) : outcome (result (Z * Z * Z)) :=
  match read_seats lines with
  | Panics m => Panics m
  | Returns (Err e) => Returns (Err e)
  | Returns (Ok seats) =>
      match analyze seats with
      | Panics m => Panics m
      | Returns t => Returns (Ok t)
      end
  end.

(** Seats with the given ids (codes are irrelevant to the analysis). *)
Definition seats_of_ids (ids : list Z) : list Seat :=
  map (fun i => mkSeat i EmptyString) ids.

(** ** Reading of the claims (spec side) *)

(** The characters of the seat-code alphabet. *)
Definition valid_char (c : ascii) : bool :=
  match c with
  | "F"%char | "B"%char | "L"%char | "R"%char => true
  | _ => false
  end.

(** The binary digit a character stands for: 1 for B or R, 0 otherwise. *)
Definition bit_of (c : ascii) : Z :=
  match c with
  | "B"%char | "R"%char => 1
  | _ => 0
  end.

(** Sum of [bit_of c_i * 2^(9-i)] over the positions [i] from [i0] on. *)
Fixpoint weighted_sum (i : nat) (cs : list ascii) : Z :=
  match cs with
  | [] => 0
  | c :: cs' => bit_of c * 2 ^ Z.of_nat (9 - i) + weighted_sum (S i) cs'
  end.

Definition code_value (code : string) : Z :=
  weighted_sum 0 (list_ascii_of_string code).

(** [missing] as the spec defines it: the smallest id of [lo, hi] at whose
    position [id - lo] the sorted sequence of ids does not hold [id]. *)
Definition first_mismatch (sorted : list Z) (lo hi m : Z) : Prop :=
  lo <= m <= hi /\
  nth_error sorted (Z.to_nat (m - lo)) <> Some m /\
  (forall x, lo <= x < m -> nth_error sorted (Z.to_nat (x - lo)) = Some x).

(** Ids of a sorted vector, computed on ids alone: insertion into a list of
    integers, the image of [insert] and [sort] under [map id]. *)
Fixpoint zinsert (x : Z) (l : list Z) : list Z :=
  match l with
  | [] => [x]
  | y :: l' => if x <=? y then x :: y :: l' else y :: zinsert x l'
  end.

Fixpoint zsort (l : list Z) : list Z :=
  match l with
  | [] => []
  | x :: l' => zinsert x (zsort l')
  end.

(** [zrange a n] is [a, a+1, ..., a+n-1]. *)
Fixpoint zrange (a : Z) (n : nat) : list Z :=
  match n with
  | O => []
  | S n' => a :: zrange (a + 1) n'
  end.

(** The ids [lo..hi] without [m], in increasing order. *)
Definition gap_ids (lo m hi : Z) : list Z :=
  zrange lo (Z.to_nat (m - lo)) ++ zrange (m + 1) (Z.to_nat (hi - m)).

(** ** Input and output of [main]

    The file system is an oracle: opening a path either fails with an
    [io::Error] or yields the results of [BufRead::lines] on the file. *)
Record io_error := mk_io_error { io_message : string }.

(** [io::Result<T>] *)
Inductive io_result (T : Type) : Type :=
| IoOk (v : T)
| IoErr (e : io_error).
Arguments IoOk {T} v.
Arguments IoErr {T} e.

Definition file_system : Type := string -> io_result (list (io_result string)).

(** [impl From<io::Error> for Error] *)
Definition error_from_io (e : io_error) : Error :=
  Error_new ("io error:" ++ io_message e)%string.

(** The [map] closure of [read_seats]. *)
Definition decode_line (res : io_result string) : outcome (result Seat) :=
  match res with
  | IoOk code => new_for_code code
  | IoErr e => Returns (Err (Error_new ("bad line: " ++ io_message e)%string))
  end.

Fixpoint read_lines_go (lines : list (io_result string)) (acc : result (list Seat))
  : outcome (result (list Seat)) :=
  match lines with
  | [] => Returns acc
  | l :: ls =>
      match decode_line l with
      | Panics m => Panics m
      | Returns r => read_lines_go ls (push_step acc r)
      end
  end.

(** [read_seats(filename)]: [read_lines(filename)?] then the fold. *)
Definition read_seats_io (fs : file_system) (filename : string)
  : outcome (result (list Seat)) :=
  match fs filename with
  | IoErr e => Returns (Err (error_from_io e))
  | IoOk lines => read_lines_go lines (Ok [])
  end.

Definition no_filename_msg : string := "filename argument required".

(** [main]: [args] is [env::args()]; the result holds the lines printed on
    standard output, which happens only after the analysis succeeded. *)
Definition main (args : list string) (fs : file_system)
  : outcome (result (list string)) :=
  if (1 <? List.length args)%nat then
    match read_seats_io fs (nth 1 args EmptyString) with
    | Panics m => Panics m
    | Returns (Err e) => Returns (Err e)
    | Returns (Ok seats) =>
        match analyze seats with
        | Panics m => Panics m
        | Returns (lowest, highest, mine) =>
            Returns (Ok [("The lowest seat id is " ++ z_to_string lowest)%string;
                         ("The highest seat id is " ++ z_to_string highest)%string;
                         ("My seat id is " ++ z_to_string mine)%string])
        end
    end
  else Panics no_filename_msg.

(** Exchanging F with L and B with R, other characters unchanged. *)
Definition swap_half (c : ascii) : ascii :=
  match c with
  | "F"%char => "L"%char
  | "L"%char => "F"%char
  | "B"%char => "R"%char
  | "R"%char => "B"%char
  | _ => c
  end.

(** A seat code for a number: position [i] holds bit [9 - i], written with
    F/B in the first seven positions and L/R in the last three. *)
Definition encode_char (i : nat) (b : bool) : ascii :=
  if (i <? 7)%nat then (if b then "B"%char else "F"%char)
  else (if b then "R"%char else "L"%char).

Fixpoint encode_go (i k : nat) (n : Z) : list ascii :=
  match k with
  | O => []
  | S k' => encode_char i (Z.testbit n (Z.of_nat (9 - i))) :: encode_go (S i) k' n
  end.

Definition encode_id (n : Z) : string := string_of_list_ascii (encode_go 0 10 n).

Definition encode_roundtrip_ok (n : Z) : bool :=
  match new_for_code (encode_id n) with
  | Returns (Ok s) =>
      (id s =? n) && String.eqb (code s) (encode_id n) &&
      Nat.eqb (String.length (encode_id n)) 10
  | _ => false
  end.

(** ** Lemmas on the decoder *)

Lemma valid_char_cases (c : ascii) :
  valid_char c = true -> c = "F"%char \/ c = "B"%char \/ c = "L"%char \/ c = "R"%char.
Proof.
  destruct c as [[] [] [] [] [] [] [] []]; simpl; intro H;
    try discriminate H; auto.
Qed.

Lemma to_id_step_invalid (acc : Z) (i : nat) (c : ascii) :
  valid_char c = false -> (i <= 9)%nat ->
  to_id_step (Ok acc) i c = Returns (Err (Error_new (illegal_char_msg c))).
Proof.
  intros Hc Hi. unfold to_id_step.
  replace (9 <? i)%nat with false by (symmetry; apply Nat.ltb_ge; lia).
  destruct c as [[] [] [] [] [] [] [] []]; simpl in Hc |- *;
    try discriminate Hc; reflexivity.
Qed.

Lemma to_id_go_err (cs : list ascii) (i : nat) (e : Error) :
  to_id_go i cs (Err e) = Returns (Err e).
Proof.
  revert i; induction cs as [|c cs IH]; intro i; simpl; auto.
Qed.

Lemma pow2_nat_succ (i : nat) :
  (i <= 9)%nat -> 2 ^ Z.of_nat (10 - i) = 2 * 2 ^ Z.of_nat (9 - i).
Proof.
  intro Hi. replace (Z.of_nat (10 - i)) with (Z.succ (Z.of_nat (9 - i))) by lia.
  apply Z.pow_succ_r. lia.
Qed.

Lemma weighted_sum_bound (cs : list ascii) (i : nat) :
  (i + List.length cs <= 10)%nat ->
  0 <= weighted_sum i cs < 2 ^ Z.of_nat (10 - i).
Proof.
  revert i; induction cs as [|c cs IH]; intros i Hlen; cbn [weighted_sum List.length] in *.
  - split; [lia | apply Z.pow_pos_nonneg; lia].
  - specialize (IH (S i) ltac:(lia)).
    replace (10 - S i)%nat with (9 - i)%nat in IH by lia.
    rewrite pow2_nat_succ by lia.
    assert (0 < 2 ^ Z.of_nat (9 - i)) by (apply Z.pow_pos_nonneg; lia).
    assert (0 <= bit_of c <= 1) by (unfold bit_of; destruct c as [[] [] [] [] [] [] [] []]; lia).
    nia.
Qed.

Lemma lor_pow2_small (k x : Z) :
  0 <= k -> 0 <= x < 2 ^ k -> Z.lor (2 ^ k) x = 2 ^ k + x.
Proof.
  intros Hk Hx.
  assert (Hand : Z.land (2 ^ k) x = 0).
  { apply Z.bits_inj'; intros n Hn.
    rewrite Z.land_spec, Z.pow2_bits_eqb, Z.bits_0 by lia.
    destruct (Z.eqb_spec k n) as [<-|]; [|reflexivity].
    simpl. destruct (Z.eq_dec x 0) as [->|Hx0]; [apply Z.bits_0|].
    apply Z.bits_above_log2; [lia|].
    apply Z.log2_lt_pow2; lia. }
  rewrite <- Z.lxor_lor by exact Hand.
  symmetry; apply Z.add_nocarry_lxor; exact Hand.
Qed.

(** On a code of valid characters that fits in the ten positions, [to_id]
    ORs the weighted sum into the accumulator. *)
Lemma to_id_go_valid (cs : list ascii) (i : nat) (acc : Z) :
  forallb valid_char cs = true -> (i + List.length cs <= 10)%nat ->
  to_id_go i cs (Ok acc) = Returns (Ok (Z.lor acc (weighted_sum i cs))).
Proof.
  revert i acc; induction cs as [|c cs IH]; intros i acc Hv Hlen;
    cbn [to_id_go weighted_sum List.length forallb] in *.
  - rewrite Z.lor_0_r; reflexivity.
  - apply andb_prop in Hv as [Hc Hv]. unfold to_id_step.
    replace (9 <? i)%nat with false by (symmetry; apply Nat.ltb_ge; lia).
    rewrite Z.shiftl_1_l.
    pose proof (weighted_sum_bound cs (S i) ltac:(lia)) as Hb.
    replace (10 - S i)%nat with (9 - i)%nat in Hb by lia.
    destruct (valid_char_cases c Hc) as [-> | [-> | [-> | ->]]]; simpl bit_of;
      rewrite IH by (auto; lia).
    + f_equal; f_equal; f_equal; lia.
    + rewrite <- Z.lor_assoc, lor_pow2_small by lia. do 3 f_equal; lia.
    + f_equal; f_equal; f_equal; lia.
    + rewrite <- Z.lor_assoc, lor_pow2_small by lia. do 3 f_equal; lia.
Qed.

Lemma length_list_ascii (s : string) :
  String.length s = List.length (list_ascii_of_string s).
Proof. induction s as [|c s IH]; simpl; auto. Qed.

Lemma to_id_go_ok_inv (cs : list ascii) (i : nat) (acc r : Z) :
  (i <= 10)%nat ->
  to_id_go i cs (Ok acc) = Returns (Ok r) ->
  forallb valid_char cs = true /\ (i + List.length cs <= 10)%nat.
Proof.
  revert i acc; induction cs as [|c cs IH]; intros i acc Hi H;
    cbn [to_id_go forallb List.length] in *.
  - split; [reflexivity | lia].
  - destruct (Nat.ltb_spec 9 i) as [Hlt|Hge].
    + unfold to_id_step in H. rewrite (proj2 (Nat.ltb_lt 9 i) Hlt) in H. discriminate H.
    + destruct (valid_char c) eqn:Hc.
      * destruct (valid_char_cases c Hc) as [-> | [-> | [-> | ->]]];
          unfold to_id_step in H; rewrite (proj2 (Nat.ltb_ge 9 i) Hge) in H;
          simpl in H; destruct (IH (S i) _ ltac:(lia) H) as [H1 H2];
          simpl; split; auto; lia.
      * rewrite to_id_step_invalid, to_id_go_err in H by (auto; lia). discriminate H.
Qed.

(** A code of at most ten valid characters decodes to its weighted sum. *)
Lemma new_for_code_valid (s : string) :
  (String.length s <= 10)%nat ->
  forallb valid_char (list_ascii_of_string s) = true ->
  to_id s = Returns (Ok (code_value s)) /\
  new_for_code s = Returns (Ok (mkSeat (code_value s) s)) /\
  0 <= code_value s <= 1023.
Proof.
  intros Hlen Hv. rewrite length_list_ascii in Hlen.
  assert (Hto : to_id s = Returns (Ok (code_value s))).
  { unfold to_id, code_value. rewrite to_id_go_valid by (auto; lia).
    rewrite Z.lor_0_l; reflexivity. }
  pose proof (weighted_sum_bound (list_ascii_of_string s) 0 ltac:(lia)) as Hb.
  change (2 ^ Z.of_nat (10 - 0)) with 1024 in Hb. fold (code_value s) in Hb.
  split; [exact Hto|]. split; [|lia].
  unfold new_for_code. rewrite Hto.
  replace (code_value s <=? 1023) with true by (symmetry; apply Z.leb_le; lia).
  reflexivity.
Qed.

Lemma to_id_go_app (l1 l2 : list ascii) (i : nat) (acc : result Z) :
  to_id_go i (l1 ++ l2) acc =
  match to_id_go i l1 acc with
  | Panics m => Panics m
  | Returns a => to_id_go (i + List.length l1) l2 a
  end.
Proof.
  revert i acc; induction l1 as [|c l1 IH]; intros i acc; simpl.
  - rewrite Nat.add_0_r; reflexivity.
  - destruct (to_id_step acc i c); [|reflexivity].
    rewrite IH. replace (S i + List.length l1)%nat with (i + S (List.length l1))%nat by lia.
    reflexivity.
Qed.

(** ** Lemmas on sorting *)

Lemma map_id_insert (x : Seat) (l : list Seat) :
  map id (insert x l) = zinsert (id x) (map id l).
Proof.
  induction l as [|y l IH]; simpl; auto.
  destruct (id x <=? id y); simpl; rewrite ?IH; reflexivity.
Qed.

Lemma map_id_sort (l : list Seat) : map id (sort l) = zsort (map id l).
Proof.
  induction l as [|x l IH]; simpl; auto. rewrite map_id_insert, IH; reflexivity.
Qed.

Lemma zinsert_perm (x : Z) (l : list Z) : Permutation (zinsert x l) (x :: l).
Proof.
  induction l as [|y l IH]; simpl; auto.
  destruct (x <=? y); auto.
  eapply perm_trans; [apply perm_skip, IH | apply perm_swap].
Qed.

Lemma zsort_perm (l : list Z) : Permutation (zsort l) l.
Proof.
  induction l as [|x l IH]; simpl; auto.
  eapply perm_trans; [apply zinsert_perm | apply perm_skip, IH].
Qed.

Lemma zinsert_forall_le (a x : Z) (l : list Z) :
  a <= x -> Forall (Z.le a) l -> Forall (Z.le a) (zinsert x l).
Proof.
  intros Hax Hl; induction Hl as [|y l Hy Hl IH]; simpl; auto.
  destruct (x <=? y); auto.
Qed.

Lemma zinsert_sorted (x : Z) (l : list Z) :
  StronglySorted Z.le l -> StronglySorted Z.le (zinsert x l).
Proof.
  induction 1 as [|y l Hl IH Hy]; simpl.
  - repeat constructor.
  - destruct (Z.leb_spec x y).
    + constructor; [constructor; auto|]. constructor; auto.
      eapply Forall_impl; [|exact Hy]. simpl; intros; lia.
    + constructor; auto. apply zinsert_forall_le; auto; lia.
Qed.

Lemma zsort_sorted (l : list Z) : StronglySorted Z.le (zsort l).
Proof.
  induction l as [|x l IH]; simpl; [constructor|]. apply zinsert_sorted, IH.
Qed.

Lemma zinsert_comm (x y : Z) (l : list Z) :
  zinsert x (zinsert y l) = zinsert y (zinsert x l).
Proof.
  induction l as [|a l IH]; simpl;
    repeat (simpl; match goal with
     | |- context [?u <=? ?v] => destruct (Z.leb_spec u v)
     end); rewrite ?IH; try reflexivity;
    try (assert (x = y) by lia; subst; reflexivity);
    try (assert (x = a) by lia; subst; reflexivity);
    try (assert (y = a) by lia; subst; reflexivity); lia.
Qed.

(** The sorted ids do not depend on the order of the input. *)
Lemma zsort_permutation (l1 l2 : list Z) :
  Permutation l1 l2 -> zsort l1 = zsort l2.
Proof.
  induction 1; simpl; auto.
  - rewrite IHPermutation; reflexivity.
  - apply zinsert_comm.
  - congruence.
Qed.

Lemma sorted_le_nodup_lt (l : list Z) :
  StronglySorted Z.le l -> NoDup l -> StronglySorted Z.lt l.
Proof.
  induction 1 as [|a l Hl IH Ha]; intro Hnd; constructor.
  - apply IH. inversion Hnd; auto.
  - inversion Hnd as [|? ? Hna Hnd']; subst.
    rewrite Forall_forall in Ha |- *. intros x Hx.
    specialize (Ha x Hx). assert (a <> x) by (intros ->; contradiction). lia.
Qed.

(** Two strictly increasing lists with the same elements are equal. *)
Lemma sorted_lt_unique (s t : list Z) :
  StronglySorted Z.lt s -> StronglySorted Z.lt t ->
  (forall x, In x s <-> In x t) -> s = t.
Proof.
  intros Hs; revert t; induction Hs as [|a s Hs IH Ha]; intros t Ht Hmem.
  - destruct t as [|b t]; auto. exfalso; apply (proj2 (Hmem b)); left; auto.
  - destruct t as [|b t]; [exfalso; apply (proj1 (Hmem a)); left; auto|].
    apply StronglySorted_inv in Ht as [Ht Hb].
    rewrite Forall_forall in Ha, Hb.
    assert (a = b).
    { destruct (proj1 (Hmem a) (or_introl eq_refl)) as [|Hin]; auto.
      destruct (proj2 (Hmem b) (or_introl eq_refl)) as [|Hin']; auto.
      specialize (Ha b Hin'); specialize (Hb a Hin); lia. }
    subst b. f_equal. apply IH; auto. intro x; split; intro Hx.
    + destruct (proj1 (Hmem x) (or_intror Hx)) as [Heq|Hin]; auto. subst x.
      specialize (Ha a Hx); lia.
    + destruct (proj2 (Hmem x) (or_intror Hx)) as [Heq|Hin]; auto. subst x.
      specialize (Hb a Hx); lia.
Qed.

(** ** Lemmas on ranges and on the search *)

Lemma zrange_in (a x : Z) (n : nat) :
  In x (zrange a n) <-> a <= x < a + Z.of_nat n.
Proof.
  revert a; induction n as [|n IH]; intro a; simpl.
  - lia.
  - rewrite IH. lia.
Qed.

Lemma zrange_sorted (a : Z) (n : nat) : StronglySorted Z.lt (zrange a n).
Proof.
  revert a; induction n as [|n IH]; intro a; simpl; constructor; auto.
  apply Forall_forall; intros x Hx. apply zrange_in in Hx. lia.
Qed.

Lemma zrange_length (a : Z) (n : nat) : List.length (zrange a n) = n.
Proof. revert a; induction n; intro a; simpl; auto. Qed.

Lemma zrange_nth (a : Z) (n k : nat) :
  (k < n)%nat -> nth_error (zrange a n) k = Some (a + Z.of_nat k).
Proof.
  revert a k; induction n as [|n IH]; intros a k Hk; [lia|].
  destruct k as [|k]; simpl.
  - f_equal; lia.
  - rewrite IH by lia. f_equal; lia.
Qed.

Lemma zrange_last (a d : Z) (n : nat) :
  last (zrange a (S n)) d = a + Z.of_nat n.
Proof.
  revert a; induction n as [|n IH]; intro a.
  - simpl. lia.
  - transitivity (last (zrange (a + 1) (S n)) d); [reflexivity|].
    rewrite IH. lia.
Qed.

Lemma sorted_lt_app (l1 l2 : list Z) :
  StronglySorted Z.lt l1 -> StronglySorted Z.lt l2 ->
  (forall x y, In x l1 -> In y l2 -> x < y) ->
  StronglySorted Z.lt (l1 ++ l2).
Proof.
  induction 1 as [|a l1 H1 IH Ha]; intros H2 Hxy; simpl; auto.
  constructor.
  - apply IH; auto. intros x y Hx Hy; apply Hxy; simpl; auto.
  - apply Forall_app; split; auto.
    apply Forall_forall; intros y Hy; apply Hxy; simpl; auto.
Qed.

Lemma find_range_ext (p q : Z -> outcome bool) (cur : Z) (n : nat) :
  (forall x, p x = q x) -> find_range p cur n = find_range q cur n.
Proof.
  intro Hpq; revert cur; induction n as [|n IH]; intro cur; simpl; auto.
  rewrite Hpq. destruct (q cur) as [[]|]; auto.
Qed.

Lemma find_range_none (p : Z -> outcome bool) (cur : Z) (n : nat) :
  (forall x, cur <= x < cur + Z.of_nat n -> p x = Returns false) ->
  find_range p cur n = Returns None.
Proof.
  revert cur; induction n as [|n IH]; intros cur Hp; simpl; auto.
  rewrite Hp by lia. apply IH. intros x Hx; apply Hp; lia.
Qed.

Lemma find_range_found (p : Z -> outcome bool) (cur : Z) (j n : nat) :
  (j < n)%nat ->
  (forall x, cur <= x < cur + Z.of_nat j -> p x = Returns false) ->
  p (cur + Z.of_nat j) = Returns true ->
  find_range p cur n = Returns (Some (cur + Z.of_nat j)).
Proof.
  revert cur n; induction j as [|j IH]; intros cur n Hjn Hbefore Hj;
    destruct n as [|n]; try lia; simpl.
  - rewrite Z.add_0_r in Hj. rewrite Hj. f_equal; f_equal; lia.
  - rewrite Hbefore by lia.
    assert (Hj' : p (cur + 1 + Z.of_nat j) = Returns true)
      by (rewrite <- Hj; f_equal; lia).
    rewrite (IH (cur + 1) n); [f_equal; f_equal; lia | lia | | exact Hj'].
    intros x Hx; apply Hbefore; lia.
Qed.

Lemma id_last (s : list Seat) (f : Seat) :
  id (last s f) = last (map id s) (id f).
Proof.
  induction s as [|a s IH]; simpl; auto.
  destruct s as [|b s]; simpl; auto.
Qed.

(** The analysis reads only the ids of the sorted vector. *)
Lemma mismatch_ids (s : list Seat) (lo x : Z) :
  mismatch s lo x =
  match nth_error (map id s) (Z.to_nat (x - lo)) with
  | None => Panics index_oob_msg
  | Some v => Returns (negb (v =? x))
  end.
Proof.
  unfold mismatch. rewrite nth_error_map.
  destruct (nth_error s (Z.to_nat (x - lo))); reflexivity.
Qed.

Lemma analyze_sorted_ids (s1 s2 : list Seat) :
  map id s1 = map id s2 -> analyze_sorted s1 = analyze_sorted s2.
Proof.
  intro Heq. destruct s1 as [|f1 r1], s2 as [|f2 r2]; try discriminate Heq; auto.
  unfold analyze_sorted.
  rewrite !id_last, Heq. injection Heq as Hf Hr. rewrite Hf.
  rewrite (find_range_ext (mismatch (f1 :: r1) (id f2)) (mismatch (f2 :: r2) (id f2))).
  - reflexivity.
  - intro x. rewrite !mismatch_ids. simpl map. rewrite Hf, Hr. reflexivity.
Qed.

(** ** The analysis on a single gap and on a contiguous range *)

Lemma last_app_cons (l1 l2 : list Z) (a d : Z) :
  last (l1 ++ a :: l2) d = last (a :: l2) d.
Proof.
  induction l1 as [|b l1 IH]; simpl; auto.
  rewrite IH. destruct l1; simpl; auto.
Qed.

Lemma gap_ids_nth (lo m hi : Z) :
  lo < m < hi ->
  (forall x, lo <= x < m -> nth_error (gap_ids lo m hi) (Z.to_nat (x - lo)) = Some x) /\
  nth_error (gap_ids lo m hi) (Z.to_nat (m - lo)) = Some (m + 1) /\
  last (gap_ids lo m hi) lo = hi.
Proof.
  intro H. unfold gap_ids. split; [|split].
  - intros x Hx. rewrite nth_error_app1 by (rewrite zrange_length; lia).
    rewrite zrange_nth by lia. f_equal; lia.
  - rewrite nth_error_app2 by (rewrite zrange_length; lia).
    rewrite zrange_length, Nat.sub_diag, zrange_nth by lia. f_equal; lia.
  - destruct (Z.to_nat (hi - m)) as [|k] eqn:Hk; [lia|].
    simpl zrange at 2. rewrite last_app_cons.
    change ((m + 1) :: zrange (m + 1 + 1) k) with (zrange (m + 1) (S k)).
    rewrite zrange_last. lia.
Qed.

Lemma gap_ids_in (lo m hi x : Z) :
  lo < m < hi -> (In x (gap_ids lo m hi) <-> lo <= x <= hi /\ x <> m).
Proof.
  intro H. unfold gap_ids. rewrite in_app_iff, !zrange_in. lia.
Qed.

Lemma gap_ids_sorted (lo m hi : Z) :
  lo < m < hi -> StronglySorted Z.lt (gap_ids lo m hi).
Proof.
  intro H. apply sorted_lt_app; try apply zrange_sorted.
  intros x y Hx Hy. apply zrange_in in Hx, Hy. lia.
Qed.

(** The sorted ids of distinct seats are determined by their set. *)
Lemma sort_ids_eq (seats : list Seat) (t : list Z) :
  NoDup (map id seats) -> StronglySorted Z.lt t ->
  (forall x, In x (map id seats) <-> In x t) ->
  map id (sort seats) = t.
Proof.
  intros Hnd Ht Hmem. rewrite map_id_sort.
  pose proof (zsort_perm (map id seats)) as Hp.
  apply sorted_lt_unique; auto.
  - apply sorted_le_nodup_lt; [apply zsort_sorted|].
    eapply Permutation_NoDup; [symmetry; exact Hp | exact Hnd].
  - intro x. rewrite <- Hmem. split; apply Permutation_in; auto. symmetry; auto.
Qed.

Lemma analyze_sorted_gap (s : list Seat) (lo m hi : Z) :
  lo < m < hi -> map id s = gap_ids lo m hi ->
  analyze_sorted s = Returns (lo, hi, m).
Proof.
  intros H Hs. destruct (gap_ids_nth lo m hi H) as [Hbefore [Hat Hlast]].
  destruct s as [|f r].
  - pose proof (Hbefore lo ltac:(lia)) as H0. rewrite <- Hs in H0. destruct (Z.to_nat (lo - lo)); discriminate H0.
  - assert (Hf : id f = lo).
    { pose proof (Hbefore lo ltac:(lia)) as H0. rewrite <- Hs, Z.sub_diag in H0.
      simpl in H0. injection H0; auto. }
    unfold analyze_sorted. rewrite id_last, Hs, Hf, Hlast.
    rewrite (find_range_found _ lo (Z.to_nat (m - lo))).
    + f_equal. f_equal. lia.
    + lia.
    + intros x Hx. rewrite mismatch_ids, Hs, Hbefore by lia.
      rewrite Z.eqb_refl; reflexivity.
    + rewrite mismatch_ids, Hs.
      replace (lo + Z.of_nat (Z.to_nat (m - lo)) - lo) with (m - lo) by lia.
      rewrite Hat. replace (m + 1 =? lo + Z.of_nat (Z.to_nat (m - lo))) with false
        by (symmetry; apply Z.eqb_neq; lia).
      reflexivity.
Qed.

Lemma analyze_sorted_contiguous (s : list Seat) (lo hi : Z) :
  lo <= hi -> map id s = zrange lo (Z.to_nat (hi - lo + 1)) ->
  analyze_sorted s = Panics unwrap_none_msg.
Proof.
  intros H Hs. destruct s as [|f r].
  - destruct (Z.to_nat (hi - lo + 1)) eqn:E; [lia|]. discriminate Hs.
  - assert (Hf : id f = lo).
    { destruct (Z.to_nat (hi - lo + 1)) eqn:E; [lia|]. injection Hs; auto. }
    unfold analyze_sorted. rewrite id_last, Hs, Hf.
    destruct (Z.to_nat (hi - lo + 1)) as [|k] eqn:E; [lia|].
    rewrite zrange_last.
    rewrite find_range_none; [reflexivity|].
    intros x Hx. rewrite mismatch_ids, Hs, <- E, zrange_nth by lia.
    replace (lo + Z.of_nat (Z.to_nat (x - lo)) =? x) with true
      by (symmetry; apply Z.eqb_eq; lia).
    reflexivity.
Qed.

(** ** Lemmas on [read_seats] *)

Lemma read_seats_go_err (lines : list string) (e : Error) (w : list Seat) :
  read_seats_go lines (Err e) <> Returns (Ok w).
Proof.
  induction lines as [|l ls IH]; simpl; [discriminate|].
  destruct (new_for_code l); [exact IH | discriminate].
Qed.

Lemma read_seats_go_ok (lines : list string) (v w : list Seat) :
  read_seats_go lines (Ok v) = Returns (Ok w) ->
  exists ss, w = v ++ ss /\
    Forall2 (fun l s => new_for_code l = Returns (Ok s)) lines ss.
Proof.
  revert v; induction lines as [|l ls IH]; intros v H; simpl in H.
  - injection H as <-. exists []. rewrite app_nil_r; auto.
  - destruct (new_for_code l) as [[seat|e]|] eqn:Hl; simpl in H.
    + apply IH in H as [ss [-> Hss]]. exists (seat :: ss).
      rewrite <- app_assoc; auto.
    + apply read_seats_go_err in H as [].
    + discriminate H.
Qed.

Lemma read_seats_go_all_ok (lines : list string) (v ss : list Seat) :
  Forall2 (fun l s => new_for_code l = Returns (Ok s)) lines ss ->
  read_seats_go lines (Ok v) = Returns (Ok (v ++ ss)).
Proof.
  intro H; revert v; induction H as [|l s ls ss Hl H IH]; intro v; simpl.
  - rewrite app_nil_r; reflexivity.
  - rewrite Hl. simpl. rewrite IH, <- app_assoc; reflexivity.
Qed.

(** ** Claims on the decoder *)

(** C2: a code of exactly ten characters from F, B, L, R decodes to the
    number whose bit of weight [2^(9-i)] is 1 exactly when character [i] is
    B or R; that number lies in [0, 1023]. *)
Theorem decode_ten_valid_chars (s : string) :
  String.length s = 10%nat ->
  forallb valid_char (list_ascii_of_string s) = true ->
  new_for_code s = Returns (Ok (mkSeat (code_value s) s)) /\
  0 <= code_value s <= 1023.
Proof.
  intros Hlen Hv.
  destruct (new_for_code_valid s ltac:(lia) Hv) as [_ [Hd Hb]]. auto.
Qed.

Lemma decode_ten_valid_chars_witness :
  new_for_code "FBFBBFFRLR"%string = Returns (Ok (mkSeat 357 "FBFBBFFRLR"%string)).
Proof.
  destruct (decode_ten_valid_chars "FBFBBFFRLR"%string eq_refl eq_refl) as [H _].
  exact H.
Defined.

(** C3: the example codes decode to 0, 1023, 357, 567, 119 and 820. *)
Theorem decode_examples :
  new_for_code "FFFFFFFLLL"%string = Returns (Ok (mkSeat 0 "FFFFFFFLLL"%string)) /\
  new_for_code "BBBBBBBRRR"%string = Returns (Ok (mkSeat 1023 "BBBBBBBRRR"%string)) /\
  new_for_code "FBFBBFFRLR"%string = Returns (Ok (mkSeat 357 "FBFBBFFRLR"%string)) /\
  new_for_code "BFFFBBFRRR"%string = Returns (Ok (mkSeat 567 "BFFFBBFRRR"%string)) /\
  new_for_code "FFFBBBFRRR"%string = Returns (Ok (mkSeat 119 "FFFBBBFRRR"%string)) /\
  new_for_code "BBFFBBFRLL"%string = Returns (Ok (mkSeat 820 "BBFFBBFRLL"%string)).
Proof. repeat split. Qed.

(** An illegal character within the first ten positions, after legal ones,
    is reported by an error that names it. *)
Lemma new_for_code_first_illegal (pre post : list ascii) (c : ascii) :
  forallb valid_char pre = true -> valid_char c = false ->
  (List.length pre < 10)%nat ->
  new_for_code (string_of_list_ascii (pre ++ c :: post)) =
  Returns (Err (Error_new (illegal_char_msg c))).
Proof.
  intros Hpre Hc Hlen. unfold new_for_code, to_id.
  rewrite list_ascii_of_string_of_list_ascii, to_id_go_app, to_id_go_valid by (auto; lia).
  rewrite Nat.add_0_l; cbn [to_id_go]. rewrite to_id_step_invalid, to_id_go_err by (auto; lia). reflexivity.
Qed.

(** C4: an illegal character after ten legal ones is never examined: the
    decoder panics on the [usize] subtraction [9 - 10] first. *)
Theorem decode_illegal_after_ten_panics :
  new_for_code "FFFFFFFFFFX"%string = Panics sub_overflow_msg.
Proof. reflexivity. Qed.

(** C5: a code longer than ten characters whose first ten are legal makes
    the decoder panic on [9 - i] at position 10; no error value is returned. *)
Theorem decode_overlong_panics (pre rest : list ascii) :
  List.length pre = 10%nat -> forallb valid_char pre = true -> rest <> [] ->
  new_for_code (string_of_list_ascii (pre ++ rest)) = Panics sub_overflow_msg.
Proof.
  intros Hlen Hv Hrest. unfold new_for_code, to_id.
  rewrite list_ascii_of_string_of_list_ascii, to_id_go_app, to_id_go_valid by (auto; lia).
  rewrite Hlen. destruct rest as [|c rest]; [contradiction|]. reflexivity.
Qed.

Lemma decode_overlong_panics_witness :
  new_for_code "FBFBBFFRLRF"%string = Panics sub_overflow_msg.
Proof.
  exact (decode_overlong_panics (list_ascii_of_string "FBFBBFFRLR") ["F"%char]
           eq_refl eq_refl ltac:(discriminate)).
Defined.

(** C9: whenever [to_id] succeeds its result is at most 1023, and
    [Seat::new_for_code] then succeeds with that id: the "too high" branch
    is never taken. *)
Theorem to_id_ok_bounded (s : string) (r : Z) :
  to_id s = Returns (Ok r) ->
  0 <= r <= 1023 /\ new_for_code s = Returns (Ok (mkSeat r s)).
Proof.
  intro H. pose proof H as H'. unfold to_id in H'.
  apply to_id_go_ok_inv in H' as [Hv Hlen]; [|lia].
  rewrite <- length_list_ascii in Hlen.
  destruct (new_for_code_valid s ltac:(lia) Hv) as [Hto [Hd Hb]].
  rewrite Hto in H. injection H as <-. auto.
Qed.

Lemma to_id_ok_bounded_witness :
  0 <= 1023 <= 1023 /\
  new_for_code "BBBBBBBRRR"%string = Returns (Ok (mkSeat 1023 "BBBBBBBRRR"%string)).
Proof. exact (to_id_ok_bounded "BBBBBBBRRR"%string 1023 eq_refl). Defined.

(** C10: the length of ten is not enforced: every code of at most ten legal
    characters decodes, and the empty code decodes to id 0. *)
Theorem decode_short_codes (s : string) :
  (String.length s <= 10)%nat ->
  forallb valid_char (list_ascii_of_string s) = true ->
  new_for_code s = Returns (Ok (mkSeat (code_value s) s)) /\
  new_for_code EmptyString = Returns (Ok (mkSeat 0 EmptyString)).
Proof.
  intros Hlen Hv. destruct (new_for_code_valid s Hlen Hv) as [_ [Hd _]].
  split; [exact Hd | reflexivity].
Qed.

Lemma decode_short_codes_witness :
  new_for_code "FBR"%string = Returns (Ok (mkSeat 384 "FBR"%string)).
Proof.
  destruct (decode_short_codes "FBR"%string ltac:(simpl; lia) eq_refl) as [H _].
  exact H.
Defined.

(** ** Claims on the analysis *)

(** C1: when the ids are distinct, [lo] and [hi] are the smallest and the
    largest of them and every id of [lo, hi] but [m] occurs, the analysis
    returns [(lo, hi, m)], and [m] is the smallest id of [lo, hi] at whose
    position [id - lo] the sorted ids do not hold [id]. *)
Theorem analyze_single_gap (seats : list Seat) (lo hi m : Z) :
  NoDup (map id seats) ->
  In lo (map id seats) -> In hi (map id seats) ->
  (forall x, In x (map id seats) -> lo <= x <= hi) ->
  lo <= m <= hi -> ~ In m (map id seats) ->
  (forall x, lo <= x <= hi -> x <> m -> In x (map id seats)) ->
  analyze seats = Returns (lo, hi, m) /\
  first_mismatch (map id (sort seats)) lo hi m.
Proof.
  intros Hnd Hlo Hhi Hrange Hm Hnotm Hall.
  assert (Hlt : lo < m < hi).
  { split; apply Z.le_neq; split; try lia; intros ->; contradiction. }
  assert (Hs : map id (sort seats) = gap_ids lo m hi).
  { apply sort_ids_eq; auto using gap_ids_sorted.
    intro x. rewrite gap_ids_in by exact Hlt. split.
    - intro Hx. split; auto. intros ->; contradiction.
    - intros [Hx Hxm]. auto. }
  destruct (gap_ids_nth lo m hi Hlt) as [Hbefore [Hat _]].
  split.
  - apply analyze_sorted_gap; auto.
  - rewrite Hs. split; [lia|]. split.
    + rewrite Hat. intro H; injection H; lia.
    + exact Hbefore.
Qed.

Lemma analyze_single_gap_witness :
  analyze (seats_of_ids [1; 2; 4; 5]) = Returns (1, 5, 3) /\
  first_mismatch (map id (sort (seats_of_ids [1; 2; 4; 5]))) 1 5 3.
Proof.
  apply analyze_single_gap; simpl.
  - repeat constructor; simpl; lia.
  - auto.
  - auto 6.
  - intros x Hx; lia.
  - lia.
  - lia.
  - intros x Hx Hx3.
    assert (x = 1 \/ x = 2 \/ x = 4 \/ x = 5) as [-> | [-> | [-> | ->]]] by lia; auto 6.
Defined.

(** C6: on an empty collection the analysis panics ([unwrap] of the [None]
    returned by [first()]); it returns no error value. *)
Theorem analyze_empty_panics :
  analyze [] = Panics unwrap_none_msg.
Proof. reflexivity. Qed.

Lemma run_empty_panics :
  run [] = Panics unwrap_none_msg.
Proof. reflexivity. Qed.

(** C7: when the distinct ids cover all of [lo, hi], the search finds no
    mismatch and the analysis panics ([unwrap] of the [None] returned by
    [find]); it returns no error value. *)
Theorem analyze_contiguous_panics (seats : list Seat) (lo hi : Z) :
  NoDup (map id seats) ->
  In lo (map id seats) -> In hi (map id seats) ->
  (forall x, In x (map id seats) -> lo <= x <= hi) ->
  (forall x, lo <= x <= hi -> In x (map id seats)) ->
  analyze seats = Panics unwrap_none_msg.
Proof.
  intros Hnd Hlo Hhi Hrange Hall.
  assert (Hle : lo <= hi) by (specialize (Hrange lo Hlo); lia).
  apply analyze_sorted_contiguous with (lo := lo) (hi := hi); auto.
  apply sort_ids_eq; auto using zrange_sorted.
  intro x. rewrite zrange_in. split.
  - intro Hx; specialize (Hrange x Hx); lia.
  - intro Hx; apply Hall; lia.
Qed.

Lemma analyze_contiguous_panics_witness :
  analyze (seats_of_ids [1; 2; 3]) = Panics unwrap_none_msg.
Proof.
  apply analyze_contiguous_panics with (lo := 1) (hi := 3); simpl.
  - repeat constructor; simpl; lia.
  - auto.
  - auto.
  - intros x Hx; lia.
  - intros x Hx.
    assert (x = 1 \/ x = 2 \/ x = 3) as [-> | [-> | ->]] by lia; auto.
Defined.

(** The ids 1, 2, 3 as seat codes: no gap, and [main] panics. *)
Lemma run_contiguous_panics :
  run ["FFFFFFFLLR"; "FFFFFFFLRL"; "FFFFFFFLRR"]%string = Panics unwrap_none_msg.
Proof. reflexivity. Qed.

(** C8: permuting the input lines does not change a successful result. *)
Theorem run_permutation_invariant (lines lines' : list string) (t : Z * Z * Z) :
  Permutation lines lines' ->
  run lines = Returns (Ok t) -> run lines' = Returns (Ok t).
Proof.
  intros Hp H. unfold run, read_seats in *.
  destruct (read_seats_go lines (Ok [])) as [[seats|e]|] eqn:Hr; try discriminate H.
  apply read_seats_go_ok in Hr as [ss [Hss Hf]]. simpl in Hss. subst ss.
  destruct (Permutation_Forall2 Hp Hf) as [seats' [Hps Hf']].
  rewrite (read_seats_go_all_ok lines' [] seats' Hf'). simpl.
  replace (analyze seats') with (analyze seats); [exact H|].
  unfold analyze. apply analyze_sorted_ids.
  rewrite !map_id_sort. apply zsort_permutation, Permutation_map, Hps.
Qed.

Lemma run_permutation_invariant_witness :
  run ["FFFFFFFLRL"; "FFFFFFFRLL"; "FFFFFFFLLR"]%string = Returns (Ok (1, 4, 3)).
Proof.
  apply (run_permutation_invariant ["FFFFFFFLLR"; "FFFFFFFLRL"; "FFFFFFFRLL"]%string).
  - apply (Permutation_cons_append ["FFFFFFFLRL"; "FFFFFFFRLL"]%string).
  - reflexivity.
Defined.

(** * Further properties of the code *)

(** ** [read_seats] *)

(** [read_seats] succeeds exactly when every line decodes, and then returns
    the seats in the order of the lines. *)
Theorem read_seats_ok_iff (lines : list string) (seats : list Seat) :
  read_seats lines = Returns (Ok seats) <->
  Forall2 (fun l s => new_for_code l = Returns (Ok s)) lines seats.
Proof.
  split.
  - intro H. apply read_seats_go_ok in H as [ss [Hss Hf]]. simpl in Hss. subst; exact Hf.
  - intro H. unfold read_seats. rewrite (read_seats_go_all_ok lines [] seats H). reflexivity.
Qed.

Lemma read_seats_go_err_tail (lines : list string) (e : Error) :
  Forall (fun l => exists r, new_for_code l = Returns r) lines ->
  read_seats_go lines (Err e) = Returns (Err e).
Proof.
  induction 1 as [|l ls [r Hr] _ IH]; simpl; auto. rewrite Hr; exact IH.
Qed.

(** The first line that fails to decode gives the error of [read_seats],
    provided no line panics. *)
Theorem read_seats_first_error (pre post : list string) (l : string) (e : Error) :
  Forall (fun l => exists s, new_for_code l = Returns (Ok s)) pre ->
  new_for_code l = Returns (Err e) ->
  Forall (fun l => exists r, new_for_code l = Returns r) post ->
  read_seats (pre ++ l :: post) = Returns (Err e).
Proof.
  intros Hpre Hl Hpost. unfold read_seats.
  generalize (@nil Seat) as v.
  induction Hpre as [|l' ls [s Hs] _ IH]; intro v; simpl.
  - rewrite Hl. simpl. apply read_seats_go_err_tail, Hpost.
  - rewrite Hs. apply IH.
Qed.

Lemma read_seats_first_error_witness :
  read_seats ["FFFFFFFLLR"; "FFXFFFFLLR"; "FFFFFFFLLQ"]%string =
  Returns (Err (Error_new "X is an illegal character")).
Proof.
  apply (read_seats_first_error ["FFFFFFFLLR"]%string ["FFFFFFFLLQ"]%string).
  - repeat constructor. eexists; reflexivity.
  - reflexivity.
  - repeat constructor. eexists; reflexivity.
Defined.

(** Every line is decoded, also after an earlier line failed: a line that
    panics makes [read_seats] panic even when an earlier line gave an error. *)
Theorem read_seats_later_panic (pre post : list string) (l : string) (m : string) :
  Forall (fun l => exists r, new_for_code l = Returns r) pre ->
  new_for_code l = Panics m ->
  read_seats (pre ++ l :: post) = Panics m.
Proof.
  intros Hpre Hl. unfold read_seats.
  generalize (@Ok (list Seat) []) as acc.
  induction Hpre as [|l' ls [r Hr] _ IH]; intro acc; simpl.
  - rewrite Hl. reflexivity.
  - rewrite Hr. apply IH.
Qed.

Lemma read_seats_later_panic_witness :
  read_seats ["FXFFFFFLLR"; "FFFFFFFLLRF"]%string = Panics sub_overflow_msg.
Proof.
  apply (read_seats_later_panic ["FXFFFFFLLR"]%string []).
  - repeat constructor. eexists; reflexivity.
  - reflexivity.
Defined.

(** ** [seats.sort()] *)

Lemma insert_perm (x : Seat) (l : list Seat) : Permutation (insert x l) (x :: l).
Proof.
  induction l as [|y l IH]; simpl; auto.
  destruct (id x <=? id y); auto.
  eapply perm_trans; [apply perm_skip, IH | apply perm_swap].
Qed.

Lemma sort_perm (l : list Seat) : Permutation (sort l) l.
Proof.
  induction l as [|x l IH]; simpl; auto.
  eapply perm_trans; [apply insert_perm | apply perm_skip, IH].
Qed.

Lemma sorted_of_map_id (l : list Seat) :
  StronglySorted Z.le (map id l) ->
  StronglySorted (fun a b => id a <= id b) l.
Proof.
  induction l as [|x l IH]; simpl; intro H; constructor.
  - apply IH. apply StronglySorted_inv in H; tauto.
  - apply StronglySorted_inv in H as [_ H].
    rewrite Forall_forall in H |- *. intros y Hy. apply H, in_map, Hy.
Qed.

(** [seats.sort()] rearranges the seats into increasing order of id. *)
Theorem sort_sorted_perm (l : list Seat) :
  Permutation (sort l) l /\ StronglySorted (fun a b => id a <= id b) (sort l).
Proof.
  split; [apply sort_perm|]. apply sorted_of_map_id.
  rewrite map_id_sort. apply zsort_sorted.
Qed.

Lemma filter_insert (k : Z) (x : Seat) (l : list Seat) :
  StronglySorted (fun a b => id a <= id b) l ->
  filter (fun s => id s =? k) (insert x l) =
  if id x =? k then x :: filter (fun s => id s =? k) l
  else filter (fun s => id s =? k) l.
Proof.
  induction 1 as [|y l Hl IH Hy]; simpl.
  - destruct (id x =? k); reflexivity.
  - destruct (Z.leb_spec (id x) (id y)); simpl.
    + destruct (id x =? k); reflexivity.
    + rewrite IH. destruct (Z.eqb_spec (id x) k), (Z.eqb_spec (id y) k); auto; lia.
Qed.

(** The sort is stable: the seats of one id keep their input order. *)
Theorem sort_stable (k : Z) (l : list Seat) :
  filter (fun s => id s =? k) (sort l) = filter (fun s => id s =? k) l.
Proof.
  induction l as [|x l IH]; simpl; auto.
  rewrite filter_insert by (apply sort_sorted_perm). rewrite IH. reflexivity.
Qed.

(** ** [to_id] *)

Lemma to_id_step_swap (acc : result Z) (i : nat) (c : ascii) :
  to_id_step acc i (swap_half c) = to_id_step acc i c.
Proof.
  destruct acc as [v|e]; [|reflexivity]. unfold to_id_step.
  destruct (9 <? i)%nat; [reflexivity|].
  destruct c as [[] [] [] [] [] [] [] []]; reflexivity.
Qed.


Lemma encode_roundtrip_all :
  forallb encode_roundtrip_ok (zrange 0 1024) = true.
Proof. vm_compute. reflexivity. Qed.

(** Every id of [0, 1023] is the id of some ten-character code. *)
Theorem encode_id_decodes (n : Z) :
  0 <= n <= 1023 ->
  String.length (encode_id n) = 10%nat /\
  new_for_code (encode_id n) = Returns (Ok (mkSeat n (encode_id n))).
Proof.
  intro Hn.
  assert (Hc : encode_roundtrip_ok n = true).
  { pose proof encode_roundtrip_all as H. rewrite forallb_forall in H.
    apply H, zrange_in. simpl. lia. }
  unfold encode_roundtrip_ok in Hc.
  destruct (new_for_code (encode_id n)) as [[[i c]|e]|] eqn:Hd; try discriminate Hc.
  apply andb_prop in Hc as [Hc Hlen]. apply andb_prop in Hc as [Hi Hcode].
  apply Z.eqb_eq in Hi. apply String.eqb_eq in Hcode. apply Nat.eqb_eq in Hlen.
  simpl in Hi, Hcode. subst. split; auto.
Qed.

Lemma encode_id_decodes_witness :
  String.length (encode_id 357) = 10%nat /\
  new_for_code (encode_id 357) = Returns (Ok (mkSeat 357 (encode_id 357))).
Proof. apply encode_id_decodes. lia. Defined.

(** ** The analysis *)

Lemma nth_error_last_z (v : list Z) (d : Z) :
  v <> [] -> nth_error v (List.length v - 1) = Some (last v d).
Proof.
  induction v as [|a v IH]; intro H; [contradiction|].
  destruct v as [|b v]; [reflexivity|].
  replace (List.length (a :: b :: v) - 1)%nat with (S (List.length (b :: v) - 1))
    by (simpl; lia).
  change (nth_error (b :: v) (List.length (b :: v) - 1) = Some (last (b :: v) d)).
  apply IH. discriminate.
Qed.

Lemma find_range_some (p : Z -> outcome bool) (cur m : Z) (n : nat) :
  find_range p cur n = Returns (Some m) ->
  cur <= m < cur + Z.of_nat n /\ p m = Returns true /\
  (forall x, cur <= x < m -> p x = Returns false).
Proof.
  revert cur; induction n as [|n IH]; intros cur H; simpl in H; [discriminate H|].
  destruct (p cur) as [[]|] eqn:Hp; try discriminate H.
  - injection H as <-. split; [lia|]. split; auto. intros x Hx; lia.
  - apply IH in H as [Hm [Hpm Hbefore]]. split; [lia|]. split; auto.
    intros x Hx. destruct (Z.eq_dec x cur) as [->|]; auto. apply Hbefore; lia.
Qed.

(** While the ids at positions [0 .. j-1] are [lo .. lo+j-1], position [j]
    is inside the vector as long as the range is not exhausted. *)
Lemma find_range_in_bounds (s : list Seat) (lo hi : Z) (n j : nat) :
  map id s <> [] -> last (map id s) lo = hi ->
  (j + n = Z.to_nat (hi - lo + 1))%nat -> (j <= List.length (map id s))%nat ->
  (forall k, (k < j)%nat -> nth_error (map id s) k = Some (lo + Z.of_nat k)) ->
  exists r, find_range (mismatch s lo) (lo + Z.of_nat j) n = Returns r.
Proof.
  revert j; induction n as [|n IH]; intros j Hne Hlast Hjn Hjl Hpre; simpl.
  - eauto.
  - assert (Hj : (j < List.length (map id s))%nat).
    { destruct (Nat.eq_dec j (List.length (map id s))) as [Heq|]; [|lia].
      exfalso.
      assert (Hl : (0 < List.length (map id s))%nat)
        by (destruct (map id s); [contradiction | simpl; lia]).
      pose proof (nth_error_last_z (map id s) lo Hne) as H1.
      rewrite Hpre in H1 by lia. injection H1 as H1. rewrite Hlast in H1. lia. }
    rewrite mismatch_ids. replace (lo + Z.of_nat j - lo) with (Z.of_nat j) by lia.
    rewrite Nat2Z.id.
    destruct (nth_error (map id s) j) as [w|] eqn:Hw;
      [|apply nth_error_None in Hw; lia].
    destruct (Z.eqb_spec w (lo + Z.of_nat j)) as [Heq|]; simpl; [|eauto].
    replace (lo + Z.of_nat j + 1) with (lo + Z.of_nat (S j)) by lia.
    apply IH; auto; try lia.
    intros k Hk. destruct (Nat.eq_dec k j) as [->|]; [congruence|]. apply Hpre; lia.
Qed.

(** The analysis never indexes outside the sorted vector: it returns a
    result or panics only on an [unwrap] of [None]. *)
Theorem analyze_no_index_panic (seats : list Seat) :
  (exists t, analyze seats = Returns t) \/ analyze seats = Panics unwrap_none_msg.
Proof.
  unfold analyze, analyze_sorted.
  destruct (sort seats) as [|f r] eqn:Hs; [right; reflexivity|].
  destruct (find_range_in_bounds (f :: r) (id f) (id (last (f :: r) f))
              (Z.to_nat (id (last (f :: r) f) - id f + 1)) 0)
    as [res Hres]; auto.
  - discriminate.
  - rewrite id_last. reflexivity.
  - simpl; lia.
  - intros k Hk; lia.
  - rewrite Z.add_0_r in Hres. rewrite Hres.
    destruct res as [mine|]; [left; eauto | right; reflexivity].
Qed.

Lemma in_last_z (v : list Z) (d : Z) : v <> [] -> In (last v d) v.
Proof.
  intro H. apply nth_error_In with (List.length v - 1)%nat. apply nth_error_last_z, H.
Qed.

Lemma sorted_le_last (v : list Z) (d x : Z) :
  StronglySorted Z.le v -> In x v -> x <= last v d.
Proof.
  induction 1 as [|a v Hv IH Ha]; intro Hx; [destruct Hx|].
  rewrite Forall_forall in Ha.
  destruct v as [|b v].
  - destruct Hx as [->|[]]; simpl; lia.
  - change (last (a :: b :: v) d) with (last (b :: v) d).
    destruct Hx as [->|Hx]; auto.
    apply Ha, in_last_z. discriminate.
Qed.

Lemma analyze_result_facts (seats : list Seat) (lo hi m : Z) :
  analyze seats = Returns (lo, hi, m) ->
  In lo (map id seats) /\ In hi (map id seats) /\
  (forall x, In x (map id seats) -> lo <= x <= hi) /\
  first_mismatch (map id (sort seats)) lo hi m.
Proof.
  intro H. unfold analyze, analyze_sorted in H.
  pose proof (zsort_sorted (map id seats)) as Hsort.
  pose proof (zsort_perm (map id seats)) as Hperm.
  rewrite <- map_id_sort in Hsort, Hperm.
  destruct (sort seats) as [|f r] eqn:Hs; [discriminate H|].
  rewrite id_last in H.
  destruct (find_range _ _ _) as [[mine|]|] eqn:Hf; try discriminate H.
  injection H as <- <- <-.
  set (v := map id (f :: r)) in *.
  assert (Hne : v <> []) by discriminate.
  assert (Hlo : In (id f) v) by (left; reflexivity).
  assert (Hhi : In (last v (id f)) v) by (apply in_last_z, Hne).
  assert (Hbound : forall x, In x v -> id f <= x <= last v (id f)).
  { intros x Hx. split.
    - destruct Hx as [<-|Hx]; [lia|].
      apply StronglySorted_inv in Hsort as [_ Hsort].
      rewrite Forall_forall in Hsort. apply Hsort, Hx.
    - apply sorted_le_last; auto. }
  split; [apply (Permutation_in _ Hperm Hlo)|].
  split; [apply (Permutation_in _ Hperm Hhi)|].
  split.
  - intros x Hx. apply Hbound. apply (Permutation_in _ (Permutation_sym Hperm) Hx).
  - apply find_range_some in Hf as [Hm [Hpm Hbefore]].
    specialize (Hbound _ Hhi). change (first_mismatch v (id f) (last v (id f)) mine).
    split; [lia|]. split.
    + rewrite mismatch_ids in Hpm. fold v in Hpm.
      destruct (nth_error v (Z.to_nat (mine - id f))) as [w|]; [|discriminate Hpm].
      injection Hpm as Hpm. intro Hw; injection Hw as ->. rewrite Z.eqb_refl in Hpm.
      discriminate Hpm.
    + intros x Hx. specialize (Hbefore x Hx). rewrite mismatch_ids in Hbefore.
      fold v in Hbefore.
      destruct (nth_error v (Z.to_nat (x - id f))) as [w|]; [|discriminate Hbefore].
      injection Hbefore as Hb. destruct (Z.eqb_spec w x); [subst; reflexivity|].
      discriminate Hb.
Qed.

(** Whatever the input, a result of the analysis has [lowest] and [highest]
    the smallest and the largest id, and [mine] the first id of
    [lowest, highest] that the sorted ids miss at its position. *)
Theorem analyze_sound (seats : list Seat) (lo hi m : Z) :
  analyze seats = Returns (lo, hi, m) ->
  In lo (map id seats) /\ In hi (map id seats) /\
  (forall x, In x (map id seats) -> lo <= x <= hi) /\
  first_mismatch (map id (sort seats)) lo hi m.
Proof. apply analyze_result_facts. Qed.

Lemma analyze_sound_witness :
  In 2 (map id (seats_of_ids [5; 2; 3])) /\ In 5 (map id (seats_of_ids [5; 2; 3])) /\
  (forall x, In x (map id (seats_of_ids [5; 2; 3])) -> 2 <= x <= 5) /\
  first_mismatch (map id (sort (seats_of_ids [5; 2; 3]))) 2 5 4.
Proof. apply analyze_sound. reflexivity. Defined.

Lemma new_for_code_ok_bounds (l : string) (s : Seat) :
  new_for_code l = Returns (Ok s) -> 0 <= id s <= 1023.
Proof.
  intro H. unfold new_for_code in H.
  destruct (to_id l) as [[i|e]|] eqn:Ht; try discriminate H.
  destruct (Z.leb_spec i 1023); [|discriminate H].
  injection H as <-. simpl.
  pose proof Ht as Ht'. unfold to_id in Ht'.
  apply to_id_go_ok_inv in Ht' as [Hv Hlen]; [|lia].
  rewrite <- length_list_ascii in Hlen.
  destruct (new_for_code_valid l ltac:(lia) Hv) as [Hto [_ Hb]].
  rewrite Hto in Ht. injection Ht as <-. lia.
Qed.

(** A successful run reports [0 <= lowest <= mine <= highest <= 1023]. *)
Theorem run_result_bounds (lines : list string) (lo hi m : Z) :
  run lines = Returns (Ok (lo, hi, m)) ->
  0 <= lo <= m /\ m <= hi <= 1023.
Proof.
  intro H. unfold run, read_seats in H.
  destruct (read_seats_go lines (Ok [])) as [[seats|e]|] eqn:Hr; try discriminate H.
  destruct (analyze seats) as [t|] eqn:Ha; [|discriminate H].
  injection H as ->.
  apply read_seats_go_ok in Hr as [ss [Hss Hf]]. simpl in Hss. subst ss.
  assert (Hids : forall x, In x (map id seats) -> 0 <= x <= 1023).
  { intros x Hx. apply in_map_iff in Hx as [s [<- Hs]].
    clear Ha. induction Hf as [|l s' ls ss Hl Hf IH]; [destruct Hs|].
    destruct Hs as [<-|Hs]; [apply (new_for_code_ok_bounds l), Hl | apply IH, Hs]. }
  apply analyze_result_facts in Ha as [Hlo [Hhi [_ [Hm _]]]].
  apply Hids in Hlo, Hhi. lia.
Qed.

Lemma run_result_bounds_witness :
  0 <= 1 <= 3 /\ 3 <= 4 <= 1023.
Proof.
  apply (run_result_bounds ["FFFFFFFLLR"; "FFFFFFFLRL"; "FFFFFFFRLL"]%string).
  reflexivity.
Defined.

(** ** [main] *)



Lemma read_lines_go_ok_lines (lines : list string) (acc : result (list Seat)) :
  read_lines_go (map IoOk lines) acc = read_seats_go lines acc.
Proof.
  revert acc; induction lines as [|l ls IH]; intro acc; simpl; auto.
  destruct (new_for_code l); auto.
Qed.


